(** * RedInk outline service: [backend/services/outline.py]

    A shallow embedding of [OutlineService] and the properties of its
    outline parser, configuration loader and [generate_outline].

    Python [str] values are sequences of Unicode code points and are
    modelled as [list N]; literals of the source are written with [u],
    which decodes the UTF-8 bytes of a Rocq string literal. *)

From Stdlib Require Import ZArith NArith List String Ascii PrimFloat Lia Bool Sorted.
From stdpp Require Import base option list gmap.

Local Open Scope N_scope.

(** ** Python strings *)

Abbreviation pystr := (list N).

Module Utf8.

(** [decode pending need s]: [need] continuation bytes are still
    expected for the code point whose high bits are [pending]. *)
Fixpoint decode (pending : N) (need : nat) (s : string) : pystr :=
  match s with
  | EmptyString => []
  | String a s' =>
      let b := N_of_ascii a in
      match need with
      | O =>
          if b <? 0x80 then b :: decode 0 0 s'
          else if b <? 0xE0 then decode (b - 0xC0) 1 s'
          else if b <? 0xF0 then decode (b - 0xE0) 2 s'
          else decode (b - 0xF0) 3 s'
      | S O => (pending * 64 + (b - 0x80)) :: decode 0 0 s'
      | S k => decode (pending * 64 + (b - 0x80)) k s'
      end
  end.

End Utf8.

(** The code points of a source literal. *)
Definition u (s : string) : pystr := Utf8.decode 0 0 s.
Arguments u s%_string.

Module Str.

(** [Py_UNICODE_ISSPACE]: the code points for which [str.isspace] holds.
    Both [str.strip] and the regular-expression classes [\s] / [\S] of a
    [str] pattern use this set. *)
Definition isspace (c : N) : bool :=
  ((0x09 <=? c) && (c <=? 0x0D)) || ((0x1C <=? c) && (c <=? 0x20))
  || (c =? 0x85) || (c =? 0xA0) || (c =? 0x1680)
  || ((0x2000 <=? c) && (c <=? 0x200A))
  || (c =? 0x2028) || (c =? 0x2029) || (c =? 0x202F) || (c =? 0x205F)
  || (c =? 0x3000).

Fixpoint drop_while (f : N -> bool) (s : pystr) : pystr :=
  match s with
  | [] => []
  | c :: s' => if f c then drop_while f s' else s
  end.

Fixpoint take_while (f : N -> bool) (s : pystr) : pystr :=
  match s with
  | [] => []
  | c :: s' => if f c then c :: take_while f s' else []
  end.

Definition lstrip (s : pystr) : pystr := drop_while isspace s.
Definition rstrip (s : pystr) : pystr := reverse (drop_while isspace (reverse s)).

(** [s.strip()] *)
Definition strip (s : pystr) : pystr := rstrip (lstrip s).

(** [not s] for a string: true on the empty string only. *)
Definition is_empty (s : pystr) : bool :=
  match s with [] => true | _ :: _ => false end.

(** Does [s] begin with [p], characters compared by [eqc p_i s_i]? *)
Fixpoint starts_with (eqc : N -> N -> bool) (p s : pystr) : bool :=
  match p, s with
  | [], _ => true
  | _ :: _, [] => false
  | a :: p', b :: s' => eqc a b && starts_with eqc p' s'
  end.

(** Is there a position of [s] at which [p] occurs? *)
Fixpoint occurs (eqc : N -> N -> bool) (p s : pystr) : bool :=
  starts_with eqc p s
  || match s with [] => false | _ :: s' => occurs eqc p s' end.

(** [s.find(p)]: the position of the leftmost occurrence. *)
Fixpoint find (eqc : N -> N -> bool) (p s : pystr) : option nat :=
  if starts_with eqc p s then Some 0%nat
  else match s with
       | [] => None
       | _ :: s' => S <$> find eqc p s'
       end.

(** [sub in s] *)
Definition contains (sub s : pystr) : bool := occurs N.eqb sub s.

(** The scan shared by [str.split(sep)] and [re.split] on a literal
    pattern: left to right, a piece ends at the leftmost occurrence of
    the separator and the scan resumes right after it.  [skip] counts
    the characters of a separator just recognised that are still to be
    consumed; [cur] holds the current piece, reversed. *)
Fixpoint split_scan (eqc : N -> N -> bool) (sep : pystr)
         (skip : nat) (cur : pystr) (s : pystr) : list pystr :=
  match s with
  | [] => [reverse cur]
  | c :: s' =>
      match skip with
      | S k => split_scan eqc sep k cur s'
      | O =>
          if starts_with eqc sep s
          then reverse cur :: split_scan eqc sep (length sep - 1) [] s'
          else split_scan eqc sep 0 (c :: cur) s'
      end
  end.

Definition split_on (eqc : N -> N -> bool) (sep s : pystr) : list pystr :=
  split_scan eqc sep 0 [] s.

(** [s.split(sep)] for a non-empty [sep]. *)
Definition split (sep s : pystr) : list pystr := split_on N.eqb sep s.

End Str.

Module Re.

(** Lower case of the ASCII capitals; every other code point is left
    alone. *)
Definition lower_ascii (c : N) : N :=
  if (0x41 <=? c) && (c <=? 0x5A) then c + 32 else c.

(** Matching one literal pattern character under [re.IGNORECASE].  The
    engine compares the Unicode lower case of the text character with
    the lower-cased pattern character.  For the characters of the one
    pattern compiled with this flag, [<page>], the code points whose
    Unicode lower case is the character are the character itself and,
    for [p], [a], [g], [e], its ASCII capital, which is what
    [lower_ascii] gives. *)
Definition ignorecase_eq (pc c : N) : bool := lower_ascii pc =? lower_ascii c.

(** [re.split(pattern, s, flags=re.IGNORECASE)] for a literal, non-empty
    pattern without groups. *)
Definition split_ignorecase (pattern s : pystr) : list pystr :=
  Str.split_on ignorecase_eq pattern s.

(** [re.search(pattern, s, flags=re.IGNORECASE) is not None] for a
    literal pattern. *)
Definition search_ignorecase (pattern s : pystr) : bool :=
  Str.occurs ignorecase_eq pattern s.

(** The class [\S] of a [str] pattern. *)
Definition non_space (c : N) : bool := negb (Str.isspace c).

(** The backtracking of the greedy [\S+] in [\[(\S+)\]]: the candidate
    lengths [k], [k-1], ..., 1 of group 1 are tried in this order, and
    the first one followed by [']'] wins. *)
Fixpoint backtrack (k : nat) (tl : pystr) : option pystr :=
  match k with
  | O => None
  | S k' =>
      match tl !! k with
      | Some c => if c =? 0x5D then Some (take k tl) else backtrack k' tl
      | None => backtrack k' tl
      end
  end.

(** [re.match(r"\[(\S+)\]", s)], giving [group(1)] when it matches:
    an opening bracket at position 0, then the longest run of
    non-space characters, given back one character at a time until a
    closing bracket follows. *)
Definition match_type_tag (s : pystr) : option pystr :=
  match s with
  | c :: tl =>
      if c =? 0x5B
      then backtrack (length (Str.take_while non_space tl)) tl
      else None
  | [] => None
  end.

End Re.

(** ** Python values and exceptions *)

#[local] Set Warnings "-register-all".

(** The values [yaml.safe_load] builds.  Mappings are keyed by strings:
    every lookup this module makes is by a string literal or by the value
    stored under [active_provider]. *)
Inductive value : Type :=
| VNone
| VBool (b : bool)
| VInt (z : Z)
| VFloat (f : float)
| VStr (s : pystr)
| VList (l : list value)
| VDict (d : gmap pystr value).

Inductive exn : Type :=
| AttributeError
| TypeError
| FileNotFoundError
| OtherError (what : string).

Inductive result (A : Type) : Type :=
| Ok (a : A)
| Raise (e : exn).
Arguments Ok {A} a.
Arguments Raise {A} e.

(** Truth value of an object, as tested by [x or y]. *)
Definition truthy (v : value) : bool :=
  match v with
  | VNone => false
  | VBool b => b
  | VInt z => negb (z =? 0)%Z
  | VFloat f => negb (PrimFloat.eqb f 0%float)
  | VStr s => negb (Str.is_empty s)
  | VList l => match l with [] => false | _ :: _ => true end
  | VDict d => negb (bool_decide (size d = 0%nat))
  end.

(** [recv.get(key, dflt)].  Only a [dict] has the method; a [list] or a
    [dict] used as key is unhashable. *)
Definition py_get (recv key dflt : value) : result value :=
  match recv with
  | VDict d =>
      match key with
      | VStr k => Ok (default dflt (d !! k))
      | VList _ | VDict _ => Raise TypeError
      | _ => Ok dflt
      end
  | _ => Raise AttributeError
  end.

(** ** Pages, requests and results *)

Record Page := mkPage { index : nat; type : pystr; content : pystr }.

Record Request := mkRequest {
  prompt : pystr;
  model : value;
  temperature : value;
  max_output_tokens : value;
  images : option (list (list Byte.byte))
}.

Record OutlineResult := mkOutlineResult {
  success : bool;
  outline : pystr;
  pages : list Page;
  has_images : bool
}.

(** The text client: one operation, [generate_text], which answers a
    request with a text or raises. *)
Record Client := mkClient { generate_text : Request -> result pystr }.

Record OutlineService := mkOutlineService {
  text_config : value;
  client : Client;
  prompt_template : pystr
}.

(** What the constructor reads from disk: [text_providers.yaml] (absent,
    or the outcome of [yaml.safe_load] on it) and
    [prompts/outline_prompt.txt]. *)
Record Files := mkFiles {
  text_providers_yaml : option (result value);
  outline_prompt_txt : result pystr
}.

(** ** Computations that call the client

    A computation threads the log of the requests sent to the client so
    far and ends in a value or in an exception. *)
Definition M (A : Type) : Type := list Request -> list Request * result A.

Definition ret {A} (a : A) : M A := fun log => (log, Ok a).
Definition raise {A} (e : exn) : M A := fun log => (log, Raise e).
Definition bind {A B} (m : M A) (k : A -> M B) : M B :=
  fun log =>
    match m log with
    | (log', Ok a) => k a log'
    | (log', Raise e) => (log', Raise e)
    end.
Definition lift {A} (r : result A) : M A := fun log => (log, r).
Definition call (c : Client) (req : Request) : M pystr :=
  fun log => (log ++ [req], generate_text c req).

(** The requests sent and the outcome, starting from an empty log. *)
Definition sent {A} (m : M A) : list Request := fst (m []).
Definition outcome {A} (m : M A) : result A := snd (m []).

Notation "'let*' x := m 'in' k" := (bind m (fun x => k))
  (at level 10, x name, m at level 100, k at level 200).

Definition bind_result {A B} (r : result A) (k : A -> result B) : result B :=
  match r with
  | Ok a => k a
  | Raise e => Raise e
  end.

Notation "'let?' x := r 'in' k" := (bind_result r (fun x => k))
  (at level 10, x name, r at level 100, k at level 200).

(** ** The service *)

Definition default_config : value :=
  VDict {[ u "active_provider" := VStr (u "google_gemini");
           u "providers" :=
             VDict {[ u "google_gemini" :=
               VDict (<[ u "type" := VStr (u "google_gemini") ]>
                     (<[ u "model" := VStr (u "gemini-2.0-flash-exp") ]>
                     (<[ u "temperature" := VFloat 1.0%float ]>
                     (<[ u "max_output_tokens" := VInt 65535 ]> ∅)))) ]} ]}.

(** [_load_text_config]: the parsed file when it exists ([{}] when it
    parses to a false value), else the default configuration. *)
Definition _load_text_config (files : Files) : result value :=
  match text_providers_yaml files with
  | Some loaded =>
      let? config := loaded in
      Ok (if truthy config then config else VDict ∅)
  | None => Ok default_config
  end.

Definition _load_prompt_template (files : Files) : result pystr :=
  outline_prompt_txt files.

(** *** [_parse_outline] *)

Definition type_mapping : gmap pystr pystr :=
  <[ u "封面" := u "cover" ]>
  (<[ u "内容" := u "content" ]>
  (<[ u "总结" := u "summary" ]> ∅)).

(** Lines 85-94: the type of a trimmed, non-empty fragment. *)
Definition page_type (page_text : pystr) : pystr :=
  match Re.match_type_tag page_text with
  | Some type_cn => default (u "content") (type_mapping !! type_cn)
  | None => u "content"
  end.

(** Lines 72-76: the fragments the text is cut into. *)
Definition pages_raw (outline_text : pystr) : list pystr :=
  if Str.contains (u "<page>") outline_text
  then Re.split_ignorecase (u "<page>") outline_text
  else Str.split (u "---") outline_text.

(** Lines 80-100: the loop over [enumerate(pages_raw)], from position
    [index] on, appending to [pages]. *)
Fixpoint parse_loop (index : nat) (pages_raw : list pystr) (pages : list Page)
  : list Page :=
  match pages_raw with
  | [] => pages
  | page_text :: rest =>
      let page_text := Str.strip page_text in
      if Str.is_empty page_text
      then parse_loop (S index) rest pages
      else parse_loop (S index) rest
             (pages ++ [ {| index := index;
                            type := page_type page_text;
                            content := page_text |} ])
  end.

Definition _parse_outline (self : OutlineService) (outline_text : pystr)
  : list Page :=
  parse_loop 0 (pages_raw outline_text) [].

(** *** [generate_outline] *)

Fixpoint digits (d : Decimal.uint) : pystr :=
  match d with
  | Decimal.Nil => []
  | Decimal.D0 d => 0x30 :: digits d
  | Decimal.D1 d => 0x31 :: digits d
  | Decimal.D2 d => 0x32 :: digits d
  | Decimal.D3 d => 0x33 :: digits d
  | Decimal.D4 d => 0x34 :: digits d
  | Decimal.D5 d => 0x35 :: digits d
  | Decimal.D6 d => 0x36 :: digits d
  | Decimal.D7 d => 0x37 :: digits d
  | Decimal.D8 d => 0x38 :: digits d
  | Decimal.D9 d => 0x39 :: digits d
  end.

(** [str(n)] for a length. *)
Definition decimal (n : nat) : pystr := digits (Nat.to_uint n).

(** The sentence of line 114 for [count] images. *)
Definition image_note (count : nat) : pystr :=
  [0x0A; 0x0A] ++ u "注意：用户提供了 " ++ decimal count
  ++ u " 张参考图片，请在生成大纲时考虑这些图片的内容和风格。这些图片可能是产品图、个人照片或场景图，请根据图片内容来优化大纲，使生成的内容与图片相关联。".

(** [images and len(images) > 0], which is also
    [images is not None and len(images) > 0]. *)
Definition images_given (images : option (list (list Byte.byte))) : bool :=
  match images with
  | Some (_ :: _) => true
  | Some [] | None => false
  end.

Definition image_count (images : option (list (list Byte.byte))) : nat :=
  match images with
  | Some l => length l
  | None => 0
  end.

(** Lines 117-123: the parameters read from the configuration. *)
Definition resolve_params (text_config : value) : result (value * value * value) :=
  let? active_provider := py_get text_config (VStr (u "active_provider")) (VStr (u "google_gemini")) in
  let? providers := py_get text_config (VStr (u "providers")) (VDict ∅) in
  let? provider_config := py_get providers active_provider (VDict ∅) in
  let? model := py_get provider_config (VStr (u "model")) (VStr (u "gemini-2.0-flash-exp")) in
  let? temperature := py_get provider_config (VStr (u "temperature")) (VFloat 1.0%float) in
  let? max_output_tokens := py_get provider_config (VStr (u "max_output_tokens")) (VInt 65535) in
  Ok (model, temperature, max_output_tokens).

Section Service.

(** [backend.utils.text_client.get_text_chat_client] *)
Variable get_text_chat_client : value -> result Client.

(** [template.format(topic=topic)] *)
Variable format : pystr -> pystr -> result pystr.

Definition _get_client (text_config : value) : result Client :=
  let? active_provider := py_get text_config (VStr (u "active_provider")) (VStr (u "google_gemini")) in
  let? providers := py_get text_config (VStr (u "providers")) (VDict ∅) in
  let? provider_config := py_get providers active_provider (VDict ∅) in
  get_text_chat_client provider_config.

(** The constructor; line 15 reads [active_provider] for its message. *)
Definition __init__ (files : Files) : result OutlineService :=
  let? text_config := _load_text_config files in
  let? _ := py_get text_config (VStr (u "active_provider")) VNone in
  let? client := _get_client text_config in
  let? prompt_template := _load_prompt_template files in
  Ok {| text_config := text_config;
        client := client;
        prompt_template := prompt_template |}.

Definition generate_outline (self : OutlineService) (topic : pystr)
           (images : option (list (list Byte.byte))) : M OutlineResult :=
  let* prompt := lift (format (prompt_template self) topic) in
  let prompt :=
    if images_given images then prompt ++ image_note (image_count images)
    else prompt in
  let* params := lift (resolve_params (text_config self)) in
  let '(model, temperature, max_output_tokens) := params in
  let* outline_text := call (client self)
                    {| prompt := prompt;
                       model := model;
                       temperature := temperature;
                       max_output_tokens := max_output_tokens;
                       images := images |} in
  let pages := _parse_outline self outline_text in
  ret {| success := true;
         outline := outline_text;
         pages := pages;
         has_images := images_given images |}.

Definition get_outline_service (files : Files) : result OutlineService :=
  __init__ files.

End Service.

(** A service to run the examples with: it answers every request with
    the request's own prompt. *)
Definition echo_service : OutlineService :=
  {| text_config := default_config;
     client := {| generate_text := fun req => Ok (prompt req) |};
     prompt_template := u "{topic}" |}.

(** A service whose configuration gives the active provider a model and
    nothing else. *)
Definition tuned_service : OutlineService :=
  {| text_config :=
       VDict {[ u "providers" :=
         VDict {[ u "google_gemini" := VDict {[ u "model" := VStr (u "m1") ]} ]} ]};
     client := {| generate_text := fun req => Ok (prompt req) |};
     prompt_template := u "{topic}" |}.

(** A service whose client always answers with the same two pages. *)
Definition scripted_service : OutlineService :=
  {| text_config := default_config;
     client := {| generate_text := fun _ => Ok (u "[封面] A<page>[内容] B") |};
     prompt_template := u "{topic}" |}.

(** A service whose client answers with white space. *)
Definition blank_service : OutlineService :=
  {| text_config := default_config;
     client := {| generate_text := fun _ => Ok [0x20; 0x0A; 0x20; 0x20] |};
     prompt_template := u "{topic}" |}.

(** A stand-in for [str.format] on the template [{topic}] and the like:
    the topic follows the template text. *)
Definition append_topic (template topic : pystr) : result pystr :=
  Ok (template ++ topic).

(** ** Definitions used to state the properties *)

Definition nl : pystr := [0x0A].

(** One iteration of the loop: the page a fragment gives, if any. *)
Definition page_of (index : nat) (page_text : pystr) : option Page :=
  let page_text := Str.strip page_text in
  if Str.is_empty page_text then None
  else Some (mkPage index (page_type page_text) page_text).

(** The request built from a formatted prompt and resolved parameters. *)
Definition request_for (p : pystr) (params : value * value * value)
           (images : option (list (list Byte.byte))) : Request :=
  {| prompt := if images_given images
               then p ++ image_note (image_count images) else p;
     model := params.1.1;
     temperature := params.1.2;
     max_output_tokens := params.2;
     images := images |}.

(** [sep.join(pieces)] *)
Fixpoint join (sep : pystr) (pieces : list pystr) : pystr :=
  match pieces with
  | [] => []
  | [x] => x
  | x :: rest => x ++ sep ++ join sep rest
  end.

(** Lines 51-53 and 117-119: the entry of the active provider. *)
Definition provider_config (text_config : value) : result value :=
  let? active_provider := py_get text_config (VStr (u "active_provider")) (VStr (u "google_gemini")) in
  let? providers := py_get text_config (VStr (u "providers")) (VDict ∅) in
  py_get providers active_provider (VDict ∅).

(** * Properties *)

(** ** The literals and the string operations on examples *)

Example u_ascii : u "<page>" = [0x3C; 0x70; 0x61; 0x67; 0x65; 0x3E].
Proof. reflexivity. Qed.

Example u_cjk : u "封面内容总结" = [0x5C01; 0x9762; 0x5185; 0x5BB9; 0x603B; 0x7ED3].
Proof. reflexivity. Qed.

Example split_legacy : Str.split (u "---") (u "----a---") = [u ""; u "-a"; u ""].
Proof. reflexivity. Qed.

Example split_markers :
  Re.split_ignorecase (u "<page>") (u "a<PAGE>b<page><Page>") = [u "a"; u "b"; u ""; u ""].
Proof. reflexivity. Qed.

Example tag_greedy : Re.match_type_tag (u "[封面]a] x") = Some (u "封面]a").
Proof. reflexivity. Qed.

Example parse_tags :
  _parse_outline echo_service (u "[封面] Title---[内容] Body --- [总结] End---[未知] X")
  = [mkPage 0 (u "cover") (u "[封面] Title"); mkPage 1 (u "content") (u "[内容] Body");
     mkPage 2 (u "summary") (u "[总结] End"); mkPage 3 (u "content") (u "[未知] X")].
Proof. vm_compute. reflexivity. Qed.

Example image_note_length : length (image_note 12) = 86%nat /\ decimal 120 = u "120".
Proof. split; reflexivity. Qed.

(** ** The parsing loop *)

Lemma parse_loop_acc i raw acc :
  parse_loop i raw acc = acc ++ parse_loop i raw [].
Proof.
  revert i acc. induction raw as [|f raw IH]; intros i acc; simpl.
  - by rewrite app_nil_r.
  - destruct (Str.is_empty (Str.strip f)); [apply IH|].
    rewrite (IH (S i) (acc ++ _)), (IH (S i) [_]).
    by rewrite <- app_assoc.
Qed.

Lemma parse_loop_cons i f raw :
  parse_loop i (f :: raw) [] =
  match page_of i f with Some p => [p] | None => [] end
  ++ parse_loop (S i) raw [].
Proof.
  unfold page_of. simpl.
  destruct (Str.is_empty (Str.strip f)); [done|].
  by rewrite parse_loop_acc.
Qed.

Lemma is_empty_nil s : Str.is_empty s = true <-> s = [].
Proof. by destruct s. Qed.

Lemma page_of_Some i f p :
  page_of i f = Some p <->
  Str.strip f <> [] /\ p = mkPage i (page_type (Str.strip f)) (Str.strip f).
Proof.
  unfold page_of. destruct (Str.strip f) as [|c s]; simpl.
  - split; [done | by intros [? _]].
  - split; [intros [= <-]; done | intros [_ ->]; done].
Qed.

Lemma elem_of_parse_loop i raw p :
  p ∈ parse_loop i raw [] <->
  exists j frag, raw !! j = Some frag /\ Str.strip frag <> []
    /\ p = mkPage (i + j) (page_type (Str.strip frag)) (Str.strip frag).
Proof.
  revert i. induction raw as [|f raw IH]; intros i.
  - simpl. split; [by intros ?%elem_of_nil | by intros (j & frag & ? & _)].
  - rewrite parse_loop_cons, elem_of_app, IH. split.
    + intros [Hp | (j & frag & Hj & Hne & ->)].
      * destruct (page_of i f) as [q|] eqn:Hq; [|by apply elem_of_nil in Hp].
        apply list_elem_of_singleton in Hp as ->.
        apply page_of_Some in Hq as [Hne ->].
        exists 0%nat, f. by rewrite Nat.add_0_r.
      * exists (S j), frag. by rewrite Nat.add_succ_r.
    + intros ([|j] & frag & Hj & Hne & ->).
      * left. simpl in Hj. injection Hj as ->.
        rewrite Nat.add_0_r.
        assert (page_of i frag = Some (mkPage i (page_type (Str.strip frag)) (Str.strip frag))) as ->
          by by apply page_of_Some.
        apply list_elem_of_singleton. done.
      * right. exists j, frag. by rewrite Nat.add_succ_r.
Qed.

Lemma parse_loop_contents i raw :
  content <$> parse_loop i raw [] =
  List.filter (fun s => negb (Str.is_empty s)) (Str.strip <$> raw).
Proof.
  revert i. induction raw as [|f raw IH]; intros i; [done|].
  rewrite parse_loop_cons, fmap_app, IH. unfold page_of. simpl.
  by destruct (Str.is_empty (Str.strip f)).
Qed.

Lemma parse_loop_index_ge i raw :
  Forall (fun p => (i <= index p)%nat) (parse_loop i raw []).
Proof.
  apply Forall_forall. intros p (j & frag & _ & _ & ->)%elem_of_parse_loop.
  simpl. lia.
Qed.

Lemma parse_loop_sorted i raw :
  StronglySorted lt (index <$> parse_loop i raw []).
Proof.
  revert i. induction raw as [|f raw IH]; intros i; [constructor|].
  rewrite parse_loop_cons.
  destruct (page_of i f) as [q|] eqn:Hq; [|apply IH].
  apply page_of_Some in Hq as [_ ->]. simpl. constructor; [apply IH|].
  apply Forall_fmap. eapply Forall_impl; [apply (parse_loop_index_ge (S i))|].
  simpl. intros p. lia.
Qed.

Lemma parse_loop_imap i raw :
  parse_loop i raw [] = omap id (imap (fun j => page_of (i + j)) raw).
Proof.
  revert i. induction raw as [|f raw IH]; intros i; [done|].
  rewrite parse_loop_cons, imap_cons, IH, Nat.add_0_r. simpl.
  assert (imap ((fun j => page_of (i + j)) ∘ S) raw
          = imap (fun j => page_of (S i + j)) raw) as ->.
  { apply imap_ext. intros j x _. simpl. f_equal. lia. }
  by destruct (page_of i f).
Qed.

(** ** Occurrences and splitting *)

Lemma split_scan_no_occurrence eqc sep cur s :
  Str.occurs eqc sep s = false ->
  Str.split_scan eqc sep 0 cur s = [reverse cur ++ s].
Proof.
  revert cur. induction s as [|c s IH]; intros cur Hocc.
  - simpl. by rewrite app_nil_r.
  - cbn [Str.occurs] in Hocc. apply orb_false_iff in Hocc as [Hhere Hlater].
    cbn [Str.split_scan]. rewrite Hhere, (IH _ Hlater), reverse_cons.
    by rewrite <- app_assoc.
Qed.

Lemma split_on_no_occurrence eqc sep s :
  Str.occurs eqc sep s = false -> Str.split_on eqc sep s = [s].
Proof. intros H. unfold Str.split_on. by rewrite split_scan_no_occurrence. Qed.

Lemma split_scan_skip eqc sep k cur s :
  Str.split_scan eqc sep k cur s = Str.split_scan eqc sep 0 cur (drop k s).
Proof.
  revert k. induction s as [|c s IH]; intros [|k]; try done.
  cbn [Str.split_scan drop]. apply IH.
Qed.

Lemma split_scan_find eqc sep cur s :
  sep <> [] ->
  Str.split_scan eqc sep 0 cur s =
  match Str.find eqc sep s with
  | None => [reverse cur ++ s]
  | Some i =>
      (reverse cur ++ take i s)
      :: Str.split_scan eqc sep 0 [] (drop (i + length sep) s)
  end.
Proof.
  intros Hsep. revert cur. induction s as [|c s IH]; intros cur.
  - destruct sep; [done|]. simpl. by rewrite app_nil_r.
  - cbn [Str.split_scan Str.find].
    destruct (Str.starts_with eqc sep (c :: s)).
    + rewrite split_scan_skip, app_nil_r.
      destruct sep; [done|]. simpl. by rewrite Nat.sub_0_r.
    + rewrite IH. destruct (Str.find eqc sep s) as [i|]; simpl.
      * by rewrite reverse_cons, <- app_assoc.
      * by rewrite reverse_cons, <- app_assoc.
Qed.

(** The scan is the loop of [str.split]: cut at the leftmost occurrence,
    go on after it. *)
Lemma split_on_find eqc sep s :
  sep <> [] ->
  Str.split_on eqc sep s =
  match Str.find eqc sep s with
  | None => [s]
  | Some i => take i s :: Str.split_on eqc sep (drop (i + length sep) s)
  end.
Proof. intros Hsep. unfold Str.split_on. by rewrite split_scan_find. Qed.

Lemma ignorecase_eq_refl c : Re.ignorecase_eq c c = true.
Proof. apply N.eqb_refl. Qed.

Lemma starts_with_ignorecase p s :
  Str.starts_with N.eqb p s = true -> Str.starts_with Re.ignorecase_eq p s = true.
Proof.
  revert s. induction p as [|a p IH]; intros [|b s]; simpl; try done.
  intros [->%N.eqb_eq Hp]%andb_true_iff.
  by rewrite ignorecase_eq_refl, IH.
Qed.

Lemma contains_search_ignorecase p s :
  Str.contains p s = true -> Re.search_ignorecase p s = true.
Proof.
  unfold Str.contains, Re.search_ignorecase.
  induction s as [|c s IH]; cbn [Str.occurs].
  - rewrite !orb_false_r. apply starts_with_ignorecase.
  - intros [H|H]%orb_true_iff; apply orb_true_iff; [left | right]; auto.
    by apply starts_with_ignorecase.
Qed.

Lemma occurs_head_mismatch eqc c0 sep s :
  Forall (fun x => eqc c0 x = false) s -> Str.occurs eqc (c0 :: sep) s = false.
Proof.
  induction 1 as [|x s Hx _ IH]; [done|].
  cbn [Str.occurs Str.starts_with]. by rewrite Hx, IH.
Qed.

(** ** Whitespace *)

Lemma drop_while_all f s : Forall (fun c => f c = true) s -> Str.drop_while f s = [].
Proof. induction 1 as [|c s Hc _ IH]; [done|]. simpl. by rewrite Hc. Qed.

Lemma strip_blank s :
  Forall (fun c => Str.isspace c = true) s -> Str.strip s = [].
Proof.
  intros H. unfold Str.strip, Str.lstrip, Str.rstrip.
  by rewrite (drop_while_all _ _ H).
Qed.

Lemma blank_no_occurrence c0 sep s :
  Str.isspace c0 = false ->
  Forall (fun c => Str.isspace c = true) s ->
  Str.contains (c0 :: sep) s = false.
Proof.
  intros Hc0 Hs. apply occurs_head_mismatch.
  eapply Forall_impl; [exact Hs|]. intros x Hx. simpl in Hx.
  destruct (N.eqb_spec c0 x) as [->|]; [congruence | done].
Qed.

Lemma pages_raw_blank t :
  Forall (fun c => Str.isspace c = true) t -> pages_raw t = [t].
Proof.
  intros H. unfold pages_raw.
  change (u "<page>") with (0x3C :: u "page>").
  change (u "---") with (0x2D :: u "--").
  rewrite (blank_no_occurrence 0x3C _ t eq_refl H).
  unfold Str.split. apply split_on_no_occurrence.
  by apply (blank_no_occurrence 0x2D).
Qed.

Lemma pages_raw_no_delimiter t :
  Re.search_ignorecase (u "<page>") t = false ->
  Str.contains (u "---") t = false ->
  pages_raw t = [t].
Proof.
  intros Hpage Hdash. unfold pages_raw.
  destruct (Str.contains (u "<page>") t) eqn:Hc.
  - apply contains_search_ignorecase in Hc. congruence.
  - by apply split_on_no_occurrence.
Qed.

(** ** The type tag *)

Lemma take_while_drop_while f s :
  Str.take_while f s ++ Str.drop_while f s = s.
Proof.
  induction s as [|c s IH]; [done|]. simpl.
  destruct (f c); [simpl; by rewrite IH | done].
Qed.

Lemma take_while_Forall f s : Forall (fun c => f c = true) (Str.take_while f s).
Proof.
  induction s as [|c s IH]; [constructor|]. simpl.
  destruct (f c) eqn:Hc; by constructor.
Qed.

Lemma take_while_app f s s' :
  Forall (fun c => f c = true) s ->
  Str.take_while f (s ++ s') = s ++ Str.take_while f s'.
Proof. induction 1 as [|c s Hc _ IH]; [done|]. simpl. by rewrite Hc, IH. Qed.

Lemma take_while_lookup f s i :
  (i < length (Str.take_while f s))%nat ->
  s !! i = Str.take_while f s !! i.
Proof.
  intros Hi. rewrite <- (take_while_drop_while f s) at 1.
  by rewrite lookup_app_l.
Qed.

Lemma take_while_stop f (s : pystr) c :
  s !! length (Str.take_while f s) = Some c -> f c = false.
Proof.
  induction s as [|x s IH]; [done|]. simpl.
  destruct (f x) eqn:Hx; simpl; [done | by intros [= <-]].
Qed.

Lemma backtrack_Some k tl tok :
  Re.backtrack k tl = Some tok <->
  exists j, (1 <= j <= k)%nat /\ tl !! j = Some 0x5D /\ tok = take j tl
    /\ forall j', (j < j' <= k)%nat -> tl !! j' <> Some 0x5D.
Proof.
  induction k as [|k IH].
  - simpl. split; [done | intros (j & ? & _); lia].
  - cbn [Re.backtrack].
    destruct (tl !! S k) as [c|] eqn:Hk; [destruct (N.eqb_spec c 0x5D) as [->|Hc]|].
    + split.
      * intros [= <-]. exists (S k). repeat split; [lia | lia | done | intros; lia].
      * intros (j & Hj & Hl & -> & Hlast).
        destruct (decide (j = S k)) as [->|]; [done|].
        exfalso. apply (Hlast (S k)); [lia | done].
    + rewrite IH. split; intros (j & Hj & Hl & -> & Hlast).
      * exists j. repeat split; [lia | lia | done |].
        intros j' Hj'. destruct (decide (j' = S k)) as [->|]; [congruence|].
        apply Hlast. lia.
      * assert (j <> S k) by congruence.
        exists j. repeat split; [lia | lia | done |].
        intros j' Hj'. apply Hlast. lia.
    + rewrite IH. split; intros (j & Hj & Hl & -> & Hlast).
      * exists j. repeat split; [lia | lia | done |].
        intros j' Hj'. destruct (decide (j' = S k)) as [->|]; [congruence|].
        apply Hlast. lia.
      * assert (j <> S k) by congruence.
        exists j. repeat split; [lia | lia | done |].
        intros j' Hj'. apply Hlast. lia.
Qed.

Lemma non_space_bracket : Re.non_space 0x5D = true.
Proof. reflexivity. Qed.

(** The tag matches exactly when the fragment reads [[tok]rest] with
    [tok] a non-empty run of non-space characters and no closing bracket
    in what is left of that run in [rest]. *)
Lemma match_type_tag_Some frag tok :
  Re.match_type_tag frag = Some tok <->
  exists rest, frag = 0x5B :: tok ++ 0x5D :: rest /\ tok <> []
    /\ Forall (fun c => Re.non_space c = true) tok
    /\ 0x5D ∉ Str.take_while Re.non_space rest.
Proof.
  split.
  - destruct frag as [|c tl]; [done|]. simpl.
    destruct (N.eqb_spec c 0x5B) as [->|]; [|done].
    intros (j & Hj & Hl & -> & Hlast)%backtrack_Some.
    set (run := Str.take_while Re.non_space tl) in *.
    assert (Hsplit : tl = take j tl ++ 0x5D :: drop (S j) tl)
      by (symmetry; by apply take_drop_middle).
    assert (Htok : Forall (fun c => Re.non_space c = true) (take j tl)).
    { apply Forall_lookup. intros i c Hi.
      apply lookup_take_Some in Hi as [Hi Hlt].
      rewrite take_while_lookup with (f := Re.non_space) in Hi by (fold run; lia).
      revert Hi. apply (proj1 (Forall_lookup _ _) (take_while_Forall _ _)). }
    exists (drop (S j) tl). repeat split; [by f_equal | | done |].
    + intros Hnil. apply (f_equal length) in Hnil.
      apply lookup_lt_Some in Hl. rewrite length_take in Hnil. simpl in Hnil. lia.
    + intros (i & Hi)%list_elem_of_lookup.
      assert (Hrun : run = take j tl ++ 0x5D :: Str.take_while Re.non_space (drop (S j) tl)).
      { unfold run. rewrite Hsplit at 1. rewrite take_while_app by done.
        cbn [Str.take_while]. by rewrite non_space_bracket. }
      assert (Hlen : length (take j tl) = j).
      { rewrite length_take. apply lookup_lt_Some in Hl. lia. }
      pose proof (lookup_lt_Some _ _ _ Hi) as Hilt.
      apply (Hlast (S j + i)%nat).
      * rewrite Hrun, length_app, Hlen. simpl. lia.
      * rewrite <- take_while_lookup in Hi by done.
        rewrite lookup_drop in Hi. done.
  - intros (rest & -> & Hne & Htok & Hrest). simpl.
    apply backtrack_Some. exists (length tok).
    rewrite take_while_app by done. cbn [Str.take_while].
    rewrite non_space_bracket, length_app. simpl. repeat split.
    + destruct tok; [done | simpl; lia].
    + lia.
    + by rewrite list_lookup_middle.
    + by rewrite take_app_length.
    + intros j' Hj' Hl.
      rewrite lookup_app_r in Hl by lia.
      destruct (j' - length tok)%nat as [|i] eqn:Hi; [lia|]. simpl in Hl.
      destruct (decide (i < length (Str.take_while Re.non_space rest))%nat) as [Hlt|Hge].
      * rewrite take_while_lookup with (f := Re.non_space) in Hl by done.
        apply Hrest. by eapply list_elem_of_lookup_2.
      * assert (i = length (Str.take_while Re.non_space rest)) as -> by lia.
        apply take_while_stop in Hl. by rewrite non_space_bracket in Hl.
Qed.

Lemma type_mapping_lookup tok :
  default (u "content") (type_mapping !! tok) =
  if decide (tok = u "封面") then u "cover"
  else if decide (tok = u "总结") then u "summary"
  else u "content".
Proof.
  unfold type_mapping. rewrite !lookup_insert, lookup_empty.
  repeat case_decide; subst; try done.
Qed.

Lemma page_type_cases frag :
  page_type frag = u "cover" /\ Re.match_type_tag frag = Some (u "封面")
  \/ page_type frag = u "summary" /\ Re.match_type_tag frag = Some (u "总结")
  \/ page_type frag = u "content" /\ Re.match_type_tag frag <> Some (u "封面")
     /\ Re.match_type_tag frag <> Some (u "总结").
Proof.
  unfold page_type. destruct (Re.match_type_tag frag) as [tok|].
  - rewrite type_mapping_lookup. repeat case_decide; subst.
    + by left.
    + right; left. done.
    + right; right. repeat split; congruence.
  - right; right. done.
Qed.

(** ** Running [generate_outline] *)

Section Generate.

Variable format : pystr -> pystr -> result pystr.

Lemma generate_outline_run self topic images p params :
  format (prompt_template self) topic = Ok p ->
  resolve_params (text_config self) = Ok params ->
  let req := request_for p params images in
  generate_outline format self topic images [] =
  ([req],
   match generate_text (client self) req with
   | Ok text => Ok {| success := true;
                      outline := text;
                      pages := _parse_outline self text;
                      has_images := images_given images |}
   | Raise e => Raise e
   end).
Proof.
  intros Hfmt Hparams req.
  unfold generate_outline, bind, lift, call, ret.
  rewrite Hfmt, Hparams. destruct params as [[m t] k]. simpl.
  subst req. unfold request_for. simpl.
  by destruct (generate_text (client self) _).
Qed.

Lemma generate_outline_pages self topic images r :
  outcome (generate_outline format self topic images) = Ok r ->
  pages r = _parse_outline self (outline r).
Proof.
  unfold outcome, generate_outline, bind, lift, call, ret.
  destruct (format (prompt_template self) topic) as [p|]; [|done].
  destruct (resolve_params (text_config self)) as [[[m t] k]|]; [|done].
  simpl. destruct (generate_text (client self) _) as [text|]; [|done].
  by intros [= <-].
Qed.

Lemma generate_outline_format_raises self topic images e :
  format (prompt_template self) topic = Raise e ->
  generate_outline format self topic images [] = ([], Raise e).
Proof.
  intros Hfmt. unfold generate_outline, bind, lift. by rewrite Hfmt.
Qed.

End Generate.

(** * The delimiter *)

(** What lines 72-76 do: the case-insensitive split is taken only when
    the lower-case marker is a substring of the text. *)
Lemma pages_raw_cases t :
  Str.contains (u "<page>") t = true /\ pages_raw t = Re.split_ignorecase (u "<page>") t
  \/ Str.contains (u "<page>") t = false /\ pages_raw t = Str.split (u "---") t.
Proof. unfold pages_raw. destruct (Str.contains (u "<page>") t); auto. Qed.

(** C1, on the input [A<PAGE>B]: the marker occurs under case-insensitive
    matching and the case-insensitive split would cut the text into [A]
    and [B], yet the text is handed to the legacy split and stays in one
    piece, because the test of line 72 is case-sensitive. *)
Lemma pages_raw_upper_marker :
  Re.search_ignorecase (u "<page>") (u "A<PAGE>B") = true
  /\ Re.split_ignorecase (u "<page>") (u "A<PAGE>B") = [u "A"; u "B"]
  /\ Str.contains (u "<page>") (u "A<PAGE>B") = false
  /\ pages_raw (u "A<PAGE>B") = [u "A<PAGE>B"]
  /\ _parse_outline echo_service (u "A<PAGE>B")
     = [mkPage 0 (u "content") (u "A<PAGE>B")].
Proof. repeat split; vm_compute; reflexivity. Qed.

(** * Pages *)

(** C2: the pages are the fragments of the split that are non-empty after
    trimming, in the order of the raw text; a page carries the position
    of its fragment in the unfiltered split list, so the indices increase
    strictly and may leave gaps.  The text
    ["<page>\n\n<page>Intro<page>\n  \n<page>End"] gives the two pages
    [Intro] and [End], at positions 2 and 4. *)
Theorem parse_outline_fragments self t :
  _parse_outline self t = omap id (imap page_of (pages_raw t))
  /\ content <$> _parse_outline self t
     = List.filter (fun s => negb (Str.is_empty s)) (Str.strip <$> pages_raw t)
  /\ StronglySorted lt (index <$> _parse_outline self t)
  /\ _parse_outline self
       (u "<page>" ++ nl ++ nl ++ u "<page>Intro<page>" ++ nl ++ u "  " ++ nl
        ++ u "<page>End")
     = [mkPage 2 (u "content") (u "Intro"); mkPage 4 (u "content") (u "End")].
Proof.
  unfold _parse_outline. split; [|split; [|split]].
  - apply parse_loop_imap.
  - apply parse_loop_contents.
  - apply parse_loop_sorted.
  - vm_compute. reflexivity.
Qed.

(** C3 as stated fails: the fragment [[封面]a]] is trimmed, non-empty and
    begins with the tag [[封面]], but the greedy [\S+] runs on to the last
    closing bracket of the run, the token is [封面]a] and the type is
    [content]. *)
Lemma page_type_later_bracket :
  Str.strip (u "[封面]a]") = u "[封面]a]"
  /\ u "[封面]a]" = u "[" ++ u "封面" ++ u "]" ++ u "a]"
  /\ Re.match_type_tag (u "[封面]a]") = Some (u "封面]a")
  /\ page_type (u "[封面]a]") = u "content"
  /\ page_type (u "[封面]a]") <> u "cover".
Proof. repeat split; vm_compute; (reflexivity || discriminate). Qed.

(** C3, amended: the token is the text between the opening bracket and
    the last closing bracket of the fragment's leading run of non-space
    characters.  So the type is [cover] exactly when the fragment begins
    with [[封面]] and no closing bracket follows before the first space,
    [summary] exactly when it begins with [[总结]] in the same way, and
    [content] in every other case, [[内容]] included. *)
Theorem page_type_by_tag frag :
  (page_type frag = u "cover" <->
     exists rest, frag = u "[封面]" ++ rest
       /\ 0x5D ∉ Str.take_while Re.non_space rest)
  /\ (page_type frag = u "summary" <->
     exists rest, frag = u "[总结]" ++ rest
       /\ 0x5D ∉ Str.take_while Re.non_space rest)
  /\ (page_type frag = u "cover" \/ page_type frag = u "summary"
      \/ page_type frag = u "content").
Proof.
  assert (Htag : forall tok, tok = u "封面" \/ tok = u "总结" ->
            (Re.match_type_tag frag = Some tok <->
             exists rest, frag = (0x5B :: tok ++ [0x5D]) ++ rest
               /\ 0x5D ∉ Str.take_while Re.non_space rest)).
  { intros tok Htok. rewrite match_type_tag_Some.
    split; intros (rest & Hfrag & H).
    - exists rest. split; [|tauto]. rewrite Hfrag. simpl. by rewrite <- app_assoc.
    - exists rest. split; [rewrite Hfrag; simpl; by rewrite <- app_assoc|].
      split; [by destruct Htok as [-> | ->]|].
      split; [|done]. destruct Htok as [-> | ->]; by repeat constructor. }
  pose proof (Htag (u "封面") (or_introl eq_refl)) as Hcover.
  pose proof (Htag (u "总结") (or_intror eq_refl)) as Hsummary.
  change ((0x5B :: u "封面" ++ [0x5D])) with (u "[封面]") in Hcover.
  change ((0x5B :: u "总结" ++ [0x5D])) with (u "[总结]") in Hsummary.
  rewrite <- Hcover, <- Hsummary.
  destruct (page_type_cases frag) as [[-> Hm] | [[-> Hm] | [-> [Hm1 Hm2]]]].
  - repeat split; auto. all: try (intros ?; exfalso; discriminate).
    rewrite Hm. intros ?; exfalso; discriminate.
  - repeat split; auto. all: try (intros ?; exfalso; discriminate).
    rewrite Hm. intros ?; exfalso; discriminate.
  - repeat split; auto. all: try (intros ?; exfalso; discriminate).
    all: intros ?; exfalso; congruence.
Qed.

(** C4: the content of a page is the whole trimmed fragment found at the
    page's index in the split list; it is not empty, and when the
    fragment carries a type tag, the content still begins with the tag,
    brackets included. *)
Theorem page_content_keeps_fragment self t p :
  p ∈ _parse_outline self t ->
  exists frag,
    pages_raw t !! index p = Some frag
    /\ content p = Str.strip frag
    /\ content p <> []
    /\ forall tok, Re.match_type_tag (Str.strip frag) = Some tok ->
         (0x5B :: tok ++ [0x5D]) `prefix_of` content p.
Proof.
  unfold _parse_outline. intros (j & frag & Hj & Hne & ->)%elem_of_parse_loop.
  exists frag. simpl. repeat split; try done.
  intros tok (rest & Hfrag & _)%match_type_tag_Some.
  exists rest. rewrite Hfrag. simpl. by rewrite <- app_assoc.
Qed.

Lemma page_content_keeps_fragment_witness :
  mkPage 1 (u "cover") (u "[封面] Title")
    ∈ _parse_outline echo_service (u "x--- [封面] Title ")
  /\ exists frag,
       pages_raw (u "x--- [封面] Title ") !! 1%nat = Some frag
       /\ u "[封面] Title" = Str.strip frag
       /\ u "[封面] Title" <> []
       /\ forall tok, Re.match_type_tag (Str.strip frag) = Some tok ->
            (0x5B :: tok ++ [0x5D]) `prefix_of` u "[封面] Title".
Proof.
  assert (H : mkPage 1 (u "cover") (u "[封面] Title")
                ∈ _parse_outline echo_service (u "x--- [封面] Title ")).
  { vm_compute. apply list_elem_of_further, list_elem_of_here. }
  split; [exact H|].
  exact (page_content_keeps_fragment echo_service _ _ H).
Defined.

(** C8: the pages are a function of the text alone.  The service the
    method is called on plays no part, so two parses of one text give the
    same sequence; and two results of [generate_outline], whatever the
    service, the topic and the images, have the same pages as soon as
    they have the same raw outline. *)
Theorem parse_outline_deterministic
        (format format' : pystr -> pystr -> result pystr)
        (self self' : OutlineService) (topic topic' : pystr)
        (images images' : option (list (list Byte.byte)))
        (r r' : OutlineResult) :
  outcome (generate_outline format self topic images) = Ok r ->
  outcome (generate_outline format' self' topic' images') = Ok r' ->
  outline r = outline r' ->
  pages r = pages r'
  /\ forall t, _parse_outline self t = _parse_outline self' t.
Proof.
  intros Hr Hr' Heq. split; [|done].
  rewrite (generate_outline_pages _ _ _ _ _ Hr).
  rewrite (generate_outline_pages _ _ _ _ _ Hr').
  by rewrite Heq.
Qed.

Lemma parse_outline_deterministic_witness :
  pages (mkOutlineResult true (u "[封面] A<page>[内容] B")
           [mkPage 0 (u "cover") (u "[封面] A"); mkPage 1 (u "content") (u "[内容] B")]
           false)
  = pages (mkOutlineResult true (u "[封面] A<page>[内容] B")
           [mkPage 0 (u "cover") (u "[封面] A"); mkPage 1 (u "content") (u "[内容] B")]
           true).
Proof.
  exact (proj1 (parse_outline_deterministic append_topic append_topic
                  scripted_service scripted_service (u "tea") (u "coffee")
                  None (Some [[Byte.x00]]) _ _ eq_refl eq_refl eq_refl)).
Defined.

(** C7 as stated fails: [[封面] Hello] holds no delimiter and is not blank,
    and its single page has type [cover], not [content]. *)
Lemma single_page_tagged :
  Re.search_ignorecase (u "<page>") (u "[封面] Hello") = false
  /\ Str.contains (u "---") (u "[封面] Hello") = false
  /\ Str.strip (u "[封面] Hello") <> []
  /\ _parse_outline echo_service (u "[封面] Hello")
     = [mkPage 0 (u "cover") (u "[封面] Hello")]
  /\ _parse_outline echo_service (u "[封面] Hello")
     <> [mkPage 0 (u "content") (u "[封面] Hello")].
Proof. repeat split; vm_compute; (reflexivity || discriminate). Qed.

(** C7, amended: parsing is a total function of the text.  A text without
    [<page>] in any case and without [---], not blank, gives one page, at
    index 0, whose content is the trimmed text and whose type is the one
    its leading tag gives: [content] when there is no tag, or a tag other
    than [封面] and [总结]. *)
Theorem parse_outline_no_delimiter self t :
  Re.search_ignorecase (u "<page>") t = false ->
  Str.contains (u "---") t = false ->
  Str.strip t <> [] ->
  _parse_outline self t = [mkPage 0 (page_type (Str.strip t)) (Str.strip t)]
  /\ (Re.match_type_tag (Str.strip t) = None -> page_type (Str.strip t) = u "content")
  /\ (forall tok, Re.match_type_tag (Str.strip t) = Some tok ->
        tok <> u "封面" -> tok <> u "总结" -> page_type (Str.strip t) = u "content").
Proof.
  intros Hpage Hdash Hne. split; [|split].
  - unfold _parse_outline. rewrite (pages_raw_no_delimiter _ Hpage Hdash).
    rewrite parse_loop_cons. simpl.
    assert (page_of 0 t = Some (mkPage 0 (page_type (Str.strip t)) (Str.strip t))) as ->
      by by apply page_of_Some.
    done.
  - intros Hm. unfold page_type. by rewrite Hm.
  - intros tok Hm H1 H2. unfold page_type. rewrite Hm, type_mapping_lookup.
    by repeat case_decide.
Qed.

Lemma parse_outline_no_delimiter_witness :
  Re.search_ignorecase (u "<page>") (u " [未知] X ") = false
  /\ Str.contains (u "---") (u " [未知] X ") = false
  /\ Str.strip (u " [未知] X ") <> []
  /\ _parse_outline echo_service (u " [未知] X ")
     = [mkPage 0 (page_type (Str.strip (u " [未知] X "))) (Str.strip (u " [未知] X "))].
Proof.
  assert (H1 : Re.search_ignorecase (u "<page>") (u " [未知] X ") = false) by reflexivity.
  assert (H2 : Str.contains (u "---") (u " [未知] X ") = false) by reflexivity.
  assert (H3 : Str.strip (u " [未知] X ") <> []) by (vm_compute; discriminate).
  split; [exact H1 | split; [exact H2 | split; [exact H3 |]]].
  exact (proj1 (parse_outline_no_delimiter echo_service _ H1 H2 H3)).
Defined.

(** * Configuration *)

(** C5: without [text_providers.yaml] the loaded configuration is the
    default one: the active provider is [google_gemini], whose entry, the
    only one, gives the model [gemini-2.0-flash-exp], the temperature
    [1.0] and [65535] output tokens; a service built from these files
    holds that configuration. *)
Theorem load_text_config_default files :
  text_providers_yaml files = None ->
  _load_text_config files = Ok default_config
  /\ py_get default_config (VStr (u "active_provider")) VNone
     = Ok (VStr (u "google_gemini"))
  /\ py_get default_config (VStr (u "providers")) VNone
     = Ok (VDict {[ u "google_gemini" :=
            VDict (<[ u "type" := VStr (u "google_gemini") ]>
                  (<[ u "model" := VStr (u "gemini-2.0-flash-exp") ]>
                  (<[ u "temperature" := VFloat 1.0%float ]>
                  (<[ u "max_output_tokens" := VInt 65535 ]> ∅)))) ]})
  /\ resolve_params default_config
     = Ok (VStr (u "gemini-2.0-flash-exp"), VFloat 1.0%float, VInt 65535)
  /\ forall get_text_chat_client self,
       __init__ get_text_chat_client files = Ok self ->
       text_config self = default_config.
Proof.
  intros Hnone. unfold _load_text_config. rewrite Hnone.
  repeat split; try reflexivity.
  intros gtc self. unfold __init__, _load_text_config. rewrite Hnone.
  cbn [bind_result].
  destruct (py_get default_config _ VNone); cbn [bind_result]; [|done].
  destruct (_get_client gtc default_config); cbn [bind_result]; [|done].
  destruct (_load_prompt_template files); cbn [bind_result]; [|done].
  by intros [= <-].
Qed.

Lemma load_text_config_default_witness :
  text_providers_yaml (mkFiles None (Ok (u "{topic}"))) = None
  /\ _load_text_config (mkFiles None (Ok (u "{topic}"))) = Ok default_config.
Proof.
  split; [reflexivity|].
  exact (proj1 (load_text_config_default (mkFiles None (Ok (u "{topic}"))) eq_refl)).
Defined.

(** * Generation *)



(** C9: the model, the temperature and the number of output tokens of the
    request are read from the entry of the active provider, each on its
    own: a key of the entry gives its value as it is, a missing key gives
    its default ([gemini-2.0-flash-exp], [1.0], [65535]); a provider
    without an entry has the empty mapping as entry, hence the three
    defaults. *)
Theorem generate_outline_params
        (format : pystr -> pystr -> result pystr) (self : OutlineService)
        (topic : pystr) (images : option (list (list Byte.byte))) (p : pystr)
        (cfg providers entry : gmap pystr value) (name : pystr) :
  format (prompt_template self) topic = Ok p ->
  text_config self = VDict cfg ->
  default (VStr (u "google_gemini")) (cfg !! u "active_provider") = VStr name ->
  default (VDict ∅) (cfg !! u "providers") = VDict providers ->
  default (VDict ∅) (providers !! name) = VDict entry ->
  exists req,
    sent (generate_outline format self topic images) = [req]
    /\ model req = default (VStr (u "gemini-2.0-flash-exp")) (entry !! u "model")
    /\ temperature req = default (VFloat 1.0%float) (entry !! u "temperature")
    /\ max_output_tokens req = default (VInt 65535) (entry !! u "max_output_tokens")
    /\ (providers !! name = None ->
        model req = VStr (u "gemini-2.0-flash-exp")
        /\ temperature req = VFloat 1.0%float
        /\ max_output_tokens req = VInt 65535).
Proof.
  intros Hfmt Hcfg Hname Hprov Hentry.
  assert (Hparams : resolve_params (text_config self)
            = Ok (default (VStr (u "gemini-2.0-flash-exp")) (entry !! u "model"),
                  default (VFloat 1.0%float) (entry !! u "temperature"),
                  default (VInt 65535) (entry !! u "max_output_tokens"))).
  { unfold resolve_params. rewrite Hcfg. cbn [py_get bind_result].
    rewrite Hname, Hprov. cbn [py_get bind_result]. rewrite Hentry. done. }
  pose proof (generate_outline_run format self topic images p _ Hfmt Hparams) as Hrun.
  simpl in Hrun. eexists. unfold sent. rewrite Hrun. simpl.
  do 4 (split; [done|]).
  intros Hnone. rewrite Hnone in Hentry. injection Hentry as <-. done.
Qed.

Lemma generate_outline_params_witness :
  exists req,
    sent (generate_outline append_topic tuned_service (u "tea") None) = [req]
    /\ model req = VStr (u "m1")
    /\ temperature req = VFloat 1.0%float
    /\ max_output_tokens req = VInt 65535.
Proof.
  destruct (generate_outline_params append_topic tuned_service (u "tea") None (u "{topic}tea")
              {[ u "providers" :=
                   VDict {[ u "google_gemini" := VDict {[ u "model" := VStr (u "m1") ]} ]} ]}
              {[ u "google_gemini" := VDict {[ u "model" := VStr (u "m1") ]} ]}
              {[ u "model" := VStr (u "m1") ]}
              (u "google_gemini")
              eq_refl eq_refl eq_refl eq_refl eq_refl)
    as (req & Hsent & Hm & Ht & Hk & _).
  exists req. split; [exact Hsent | split; [exact Hm | split; [exact Ht | exact Hk]]].
Defined.

(** Outside the shape of the data model the lookups raise: an entry that
    is [None] has no [get]. *)
Example resolve_params_entry_none :
  resolve_params
    (VDict {[ u "providers" := VDict {[ u "google_gemini" := VNone ]} ]})
  = Raise AttributeError.
Proof. reflexivity. Qed.

(** C10: a text that is empty or made of white space only has no page,
    and [generate_outline] then returns a result with [success] true,
    that text as [outline] and the empty sequence as [pages]. *)
Theorem generate_outline_blank format self topic images p params text :
  Forall (fun c => Str.isspace c = true) text ->
  format (prompt_template self) topic = Ok p ->
  resolve_params (text_config self) = Ok params ->
  generate_text (client self) (request_for p params images) = Ok text ->
  _parse_outline self text = []
  /\ outcome (generate_outline format self topic images)
     = Ok {| success := true;
             outline := text;
             pages := [];
             has_images := images_given images |}.
Proof.
  intros Hblank Hfmt Hparams Htext.
  assert (Hparse : _parse_outline self text = []).
  { unfold _parse_outline. rewrite (pages_raw_blank _ Hblank).
    simpl. by rewrite (strip_blank _ Hblank). }
  split; [done|].
  pose proof (generate_outline_run format self topic images p params Hfmt Hparams) as Hrun.
  simpl in Hrun. unfold outcome. rewrite Hrun. simpl.
  by rewrite Htext, Hparse.
Qed.

Lemma generate_outline_blank_witness :
  Forall (fun c => Str.isspace c = true) [0x20; 0x0A; 0x20; 0x20]
  /\ outcome (generate_outline append_topic blank_service (u "tea") None)
     = Ok {| success := true;
             outline := [0x20; 0x0A; 0x20; 0x20];
             pages := [];
             has_images := false |}.
Proof.
  assert (Hb : Forall (fun c => Str.isspace c = true) [0x20; 0x0A; 0x20; 0x20])
    by (repeat constructor).
  split; [exact Hb|].
  exact (proj2 (generate_outline_blank append_topic blank_service (u "tea") None
                  (u "{topic}tea")
                  (VStr (u "gemini-2.0-flash-exp"), VFloat 1.0%float, VInt 65535)
                  _ Hb eq_refl eq_refl eq_refl)).
Defined.

(** * Further properties of the parser *)

(** ** Occurrences *)

Lemma starts_with_app eqc p s s' :
  Str.starts_with eqc p s = true -> Str.starts_with eqc p (s ++ s') = true.
Proof.
  revert s. induction p as [|a p IH]; intros [|b s]; simpl; try done.
  intros [-> Hp]%andb_true_iff. simpl. by apply IH.
Qed.

Lemma occurs_app_r eqc p s s' :
  Str.occurs eqc p s = true -> Str.occurs eqc p (s ++ s') = true.
Proof.
  induction s as [|c s IH]; cbn [Str.occurs].
  - rewrite orb_false_r. intros H.
    destruct s'; cbn [app Str.occurs]; apply orb_true_iff; left;
      by apply (starts_with_app eqc p [] _).
  - intros [H|H]%orb_true_iff; cbn [app Str.occurs]; apply orb_true_iff.
    + left. by apply (starts_with_app eqc p (c :: s)).
    + right. by apply IH.
Qed.

Lemma occurs_app_l eqc p s' s :
  Str.occurs eqc p s = true -> Str.occurs eqc p (s' ++ s) = true.
Proof.
  intros H. induction s' as [|c s' IH]; [done|].
  cbn [app Str.occurs]. apply orb_true_iff. by right.
Qed.

Lemma occurs_infix eqc p l m r :
  Str.occurs eqc p (l ++ m ++ r) = false -> Str.occurs eqc p m = false.
Proof.
  intros H. destruct (Str.occurs eqc p m) eqn:Hm; [|done].
  by rewrite (occurs_app_l _ _ l _ (occurs_app_r _ _ _ r Hm)) in H.
Qed.

Lemma find_None eqc p s :
  Str.find eqc p s = None <-> Str.occurs eqc p s = false.
Proof.
  induction s as [|c s IH]; cbn [Str.find Str.occurs].
  - rewrite orb_false_r. by destruct (Str.starts_with eqc p []).
  - destruct (Str.starts_with eqc p (c :: s)); simpl; [done|].
    rewrite <- IH. by destruct (Str.find eqc p s).
Qed.

(** The position found is the leftmost one: the separator starts there,
    and the text before it holds no occurrence. *)
Lemma find_Some eqc p s i :
  p <> [] ->
  Str.find eqc p s = Some i ->
  (i + length p <= length s)%nat
  /\ Str.starts_with eqc p (drop i s) = true
  /\ Str.occurs eqc p (take i s) = false.
Proof.
  intros Hp. revert i. induction s as [|c s IH]; intros i; cbn [Str.find].
  - destruct p; [done|]. done.
  - destruct (Str.starts_with eqc p (c :: s)) eqn:Hhere.
    + intros [= <-]. repeat split; [|done|by destruct p].
      clear IH. revert Hhere. generalize (c :: s). clear -Hp.
      induction p as [|a p IHp]; [done|]. intros [|b l]; simpl; [done|].
      intros [_ H]%andb_true_iff. destruct p as [|a' p]; [simpl; lia|].
      specialize (IHp ltac:(done) l H). simpl in *. lia.
    + destruct (Str.find eqc p s) as [j|] eqn:Hj; [|done].
      intros [= <-]. destruct (IH j eq_refl) as (Hlen & Hst & Hocc).
      repeat split; [simpl; lia | done |].
      cbn [take Str.occurs]. rewrite Hocc, orb_false_r.
      destruct (Str.starts_with eqc p (c :: take j s)) eqn:Hpre; [|done].
      apply (starts_with_app _ _ _ (drop j s)) in Hpre.
      change ((c :: take j s) ++ drop j s) with (c :: (take j s ++ drop j s)) in Hpre.
      rewrite take_drop in Hpre. congruence.
Qed.

(** ** The pieces of a split *)

Lemma split_scan_nonempty eqc sep k cur s :
  Str.split_scan eqc sep k cur s <> [].
Proof.
  revert k cur. induction s as [|c s IH]; intros k cur; [done|].
  cbn [Str.split_scan]. destruct k; [|apply IH].
  destruct (Str.starts_with eqc sep (c :: s)); [done | apply IH].
Qed.

Lemma split_on_nonempty eqc sep s : Str.split_on eqc sep s <> [].
Proof. apply split_scan_nonempty. Qed.

Lemma join_cons sep x rest :
  rest <> [] -> join sep (x :: rest) = x ++ sep ++ join sep rest.
Proof. by destruct rest. Qed.

Lemma starts_with_fmap eqc (f : N -> N) p s :
  (forall a b, eqc a b = true -> f a = f b) ->
  Str.starts_with eqc p s = true ->
  f <$> p = f <$> take (length p) s.
Proof.
  intros Hf. revert s. induction p as [|a p IH]; intros s Hs; [done|].
  destruct s as [|b s]; [done|].
  cbn [Str.starts_with] in Hs. apply andb_true_iff in Hs as [Hab Hp].
  cbn [length take]. rewrite !fmap_cons.
  f_equal; [by apply Hf | by apply IH].
Qed.

(** No piece holds an occurrence of the separator. *)
Lemma split_on_pieces eqc sep s :
  sep <> [] ->
  Forall (fun piece => Str.occurs eqc sep piece = false) (Str.split_on eqc sep s).
Proof.
  intros Hsep.
  assert (Hlen : (0 < length sep)%nat) by (destruct sep; [done | simpl; lia]).
  assert (H : forall n s, (length s <= n)%nat ->
            Forall (fun piece => Str.occurs eqc sep piece = false)
                   (Str.split_on eqc sep s)).
  { clear s. induction n as [|n IH]; intros s Hn;
      rewrite split_on_find by done;
      destruct (Str.find eqc sep s) as [i|] eqn:Hfind.
    - apply find_Some in Hfind as (Hi & _); [lia | done].
    - constructor; [by apply find_None | constructor].
    - apply find_Some in Hfind as (Hi & _ & Hocc); [|done].
      constructor; [done|]. apply IH. rewrite length_drop. lia.
    - constructor; [by apply find_None | constructor]. }
  by apply (H (length s)).
Qed.

(** Putting the separator back between the pieces gives the text again,
    up to what the character comparison identifies. *)
Lemma split_on_join eqc (f : N -> N) sep s :
  sep <> [] ->
  (forall a b, eqc a b = true -> f a = f b) ->
  f <$> join sep (Str.split_on eqc sep s) = f <$> s.
Proof.
  intros Hsep Hf.
  assert (Hlen : (0 < length sep)%nat) by (destruct sep; [done | simpl; lia]).
  assert (H : forall n s, (length s <= n)%nat ->
            f <$> join sep (Str.split_on eqc sep s) = f <$> s).
  { clear s. induction n as [|n IH]; intros s Hn;
      rewrite split_on_find by done;
      destruct (Str.find eqc sep s) as [i|] eqn:Hfind; try done.
    - apply find_Some in Hfind as (Hi & _); [lia | done].
    - apply find_Some in Hfind as (Hi & Hst & _); [|done].
      rewrite join_cons by apply split_on_nonempty.
      rewrite !fmap_app, IH by (rewrite length_drop; lia).
      rewrite (starts_with_fmap _ _ _ _ Hf Hst).
      transitivity (f <$> (take i s ++ take (length sep) (drop i s)
                           ++ drop (length sep) (drop i s))).
      + by rewrite !fmap_app, drop_drop.
      + by rewrite !take_drop. }
  by apply (H (length s)).
Qed.

Lemma lower_ascii_ignorecase a b :
  Re.ignorecase_eq a b = true -> Re.lower_ascii a = Re.lower_ascii b.
Proof. apply N.eqb_eq. Qed.

(** ** Trimming *)

Lemma drop_while_head f s c r : Str.drop_while f s = c :: r -> f c = false.
Proof.
  induction s as [|x s IH]; [done|]. simpl.
  destruct (f x) eqn:Hx; [done | by intros [= <- _]].
Qed.

Lemma drop_while_id f c r : f c = false -> Str.drop_while f (c :: r) = c :: r.
Proof. intros H. simpl. by rewrite H. Qed.

(** The trimmed text sits inside the text. *)
Lemma strip_infix s : exists l r, s = l ++ Str.strip s ++ r.
Proof.
  unfold Str.strip, Str.rstrip, Str.lstrip.
  exists (Str.take_while Str.isspace s),
         (reverse (Str.take_while Str.isspace (reverse (Str.drop_while Str.isspace s)))).
  rewrite <- reverse_app, take_while_drop_while, reverse_involutive.
  by rewrite take_while_drop_while.
Qed.

(** A trimmed text that is not empty begins and ends with a character
    that is not white space. *)
Lemma strip_ends s :
  Str.strip s <> [] ->
  (exists c, head (Str.strip s) = Some c /\ Str.isspace c = false)
  /\ (exists c, last (Str.strip s) = Some c /\ Str.isspace c = false).
Proof.
  unfold Str.strip, Str.rstrip, Str.lstrip.
  set (a := Str.drop_while Str.isspace s).
  destruct (Str.drop_while Str.isspace (reverse a)) as [|z w] eqn:Hw; [done|].
  intros _. pose proof (drop_while_head _ _ _ _ Hw) as Hz.
  split.
  - pose proof (take_while_drop_while Str.isspace (reverse a)) as Hsplit.
    rewrite Hw in Hsplit. apply (f_equal reverse) in Hsplit.
    rewrite reverse_app, reverse_involutive in Hsplit.
    destruct (reverse (z :: w)) as [|h tl] eqn:Hrev.
    { apply (f_equal length) in Hrev. rewrite length_reverse in Hrev. done. }
    exists h. split; [done|].
    simpl in Hsplit. apply (drop_while_head Str.isspace s h
      (tl ++ reverse (Str.take_while Str.isspace (reverse a)))).
    symmetry. exact Hsplit.
  - exists z. split; [|done]. by rewrite reverse_cons, last_snoc.
Qed.

Lemma strip_fixed s c c' :
  head s = Some c -> Str.isspace c = false ->
  last s = Some c' -> Str.isspace c' = false ->
  Str.strip s = s.
Proof.
  intros Hh Hc Hl Hc'. unfold Str.strip, Str.rstrip, Str.lstrip.
  destruct s as [|x s]; [done|]. simpl in Hh. injection Hh as ->.
  rewrite (drop_while_id _ _ _ Hc).
  destruct (reverse (c :: s)) as [|y r] eqn:Hrev.
  { apply (f_equal length) in Hrev. rewrite length_reverse in Hrev. done. }
  assert (y = c') as ->.
  { apply (f_equal reverse) in Hrev. rewrite reverse_involutive in Hrev.
    rewrite Hrev, reverse_cons, last_snoc in Hl. by injection Hl. }
  rewrite (drop_while_id _ _ _ Hc'), <- Hrev. apply reverse_involutive.
Qed.

Lemma strip_strip s : Str.strip (Str.strip s) = Str.strip s.
Proof.
  destruct (decide (Str.strip s = [])) as [->|Hne]; [done|].
  destruct (strip_ends s Hne) as [(c & Hh & Hc) (c' & Hl & Hc')].
  by eapply strip_fixed.
Qed.

(** Each piece sits inside the text. *)
Lemma split_on_infix eqc sep s piece :
  sep <> [] ->
  piece ∈ Str.split_on eqc sep s ->
  exists l r, s = l ++ piece ++ r.
Proof.
  intros Hsep.
  assert (Hlen : (0 < length sep)%nat) by (destruct sep; [done | simpl; lia]).
  assert (H : forall n s, (length s <= n)%nat ->
            piece ∈ Str.split_on eqc sep s -> exists l r, s = l ++ piece ++ r).
  { clear s. induction n as [|n IH]; intros s Hn;
      rewrite split_on_find by done;
      destruct (Str.find eqc sep s) as [i|] eqn:Hfind.
    - apply find_Some in Hfind as (Hi & _); [lia | done].
    - intros ->%list_elem_of_singleton. exists [], []. by rewrite app_nil_r.
    - apply find_Some in Hfind as (Hi & _ & _); [|done].
      intros [-> | Hin]%elem_of_cons.
      + exists [], (drop i s). by rewrite take_drop.
      + apply IH in Hin as (l & r & Hs); [|rewrite length_drop; lia].
        exists (take (i + length sep) s ++ l), r.
        rewrite <- (take_drop (i + length sep) s) at 1.
        by rewrite Hs, <- app_assoc.
    - intros ->%list_elem_of_singleton. exists [], []. by rewrite app_nil_r. }
  by apply (H (length s)).
Qed.

Lemma page_marker_nonempty : u "<page>" <> [] /\ u "---" <> [].
Proof. done. Qed.

(** A page comes from a fragment of the split. *)
Lemma elem_of_parse_outline self t p :
  p ∈ _parse_outline self t ->
  exists frag, frag ∈ pages_raw t /\ pages_raw t !! index p = Some frag
    /\ Str.strip frag <> []
    /\ content p = Str.strip frag
    /\ type p = page_type (Str.strip frag).
Proof.
  unfold _parse_outline. intros (j & frag & Hj & Hne & ->)%elem_of_parse_loop.
  exists frag. simpl. repeat split; try done.
  by eapply list_elem_of_lookup_2.
Qed.

Lemma stripped_fragment_no_delimiter t frag :
  frag ∈ pages_raw t ->
  if Str.contains (u "<page>") t
  then Re.search_ignorecase (u "<page>") (Str.strip frag) = false
  else Str.contains (u "---") (Str.strip frag) = false.
Proof.
  destruct (strip_infix frag) as (l & r & Hfrag).
  unfold pages_raw.
  destruct (Str.contains (u "<page>") t); intros Hin.
  - pose proof (split_on_pieces Re.ignorecase_eq (u "<page>") t ltac:(done)) as Hall.
    rewrite Forall_forall in Hall. specialize (Hall _ Hin).
    rewrite Hfrag in Hall. by apply occurs_infix in Hall.
  - pose proof (split_on_pieces N.eqb (u "---") t ltac:(done)) as Hall.
    rewrite Forall_forall in Hall. specialize (Hall _ Hin).
    rewrite Hfrag in Hall. by apply occurs_infix in Hall.
Qed.

(** * Further properties: what the parser keeps *)

(** X1.  Nothing but the markers is dropped by the split: the fragments
    joined by [---] are the text again when the legacy split is taken,
    and joined by [<page>] they are the text up to the case of the
    markers when the marker split is taken. *)
Theorem pages_raw_join t :
  if Str.contains (u "<page>") t
  then Re.lower_ascii <$> join (u "<page>") (pages_raw t) = Re.lower_ascii <$> t
  else join (u "---") (pages_raw t) = t.
Proof.
  unfold pages_raw. destruct (Str.contains (u "<page>") t).
  - apply split_on_join; [done|]. apply lower_ascii_ignorecase.
  - pose proof (split_on_join N.eqb id (u "---") t ltac:(done)) as Hjoin.
    rewrite !list_fmap_id in Hjoin. apply Hjoin.
    by intros a b ->%N.eqb_eq.
Qed.

(** X2.  No page holds the delimiter its text was cut at: after the
    marker split no content matches [<page>] in any case, after the
    legacy split no content contains [---]. *)
Theorem page_content_no_delimiter self t p :
  p ∈ _parse_outline self t ->
  if Str.contains (u "<page>") t
  then Re.search_ignorecase (u "<page>") (content p) = false
  else Str.contains (u "---") (content p) = false.
Proof.
  intros (frag & Hin & _ & _ & -> & _)%elem_of_parse_outline.
  by apply stripped_fragment_no_delimiter.
Qed.

Lemma page_content_no_delimiter_witness :
  mkPage 1 (u "content") (u "b") ∈ _parse_outline echo_service (u "a<PAGE> b <page>")
  /\ Re.search_ignorecase (u "<page>") (u "b") = false.
Proof.
  assert (H : mkPage 1 (u "content") (u "b")
                ∈ _parse_outline echo_service (u "a<PAGE> b <page>")).
  { vm_compute. apply list_elem_of_further, list_elem_of_here. }
  split; [exact H|].
  exact (page_content_no_delimiter echo_service _ _ H).
Defined.

(** X3.  The split always gives one fragment at least; there are as many
    pages as fragments that are not blank, and the index of a page is a
    position of the split list. *)
Theorem parse_outline_count self t :
  (1 <= length (pages_raw t))%nat
  /\ length (_parse_outline self t)
     = length (List.filter (fun frag => negb (Str.is_empty (Str.strip frag)))
                           (pages_raw t))
  /\ (length (_parse_outline self t) <= length (pages_raw t))%nat
  /\ Forall (fun p => (index p < length (pages_raw t))%nat) (_parse_outline self t).
Proof.
  assert (Hcount : length (_parse_outline self t)
     = length (List.filter (fun frag => negb (Str.is_empty (Str.strip frag)))
                           (pages_raw t))).
  { unfold _parse_outline.
    rewrite <- (length_fmap content), parse_loop_contents.
    generalize (pages_raw t). intros raw.
    induction raw as [|f raw IH]; [done|].
    rewrite fmap_cons. cbn [List.filter].
    destruct (Str.is_empty (Str.strip f)); cbn [negb length]; by rewrite IH. }
  split; [|split; [exact Hcount | split]].
  - assert (pages_raw t <> []) as Hne.
    { unfold pages_raw. destruct (Str.contains _ t); apply split_on_nonempty. }
    destruct (pages_raw t); [done | simpl; lia].
  - rewrite Hcount. apply List.filter_length_le.
  - apply Forall_forall. intros p (frag & _ & Hl & _)%elem_of_parse_outline.
    by eapply lookup_lt_Some.
Qed.

(** X4.  The content of a page is trimmed: it begins and ends with a
    character that is not white space, and trimming it again changes
    nothing. *)
Theorem page_content_trimmed self t p :
  p ∈ _parse_outline self t ->
  Str.strip (content p) = content p
  /\ (exists c, head (content p) = Some c /\ Str.isspace c = false)
  /\ (exists c, last (content p) = Some c /\ Str.isspace c = false).
Proof.
  intros (frag & _ & _ & Hne & -> & _)%elem_of_parse_outline.
  split; [apply strip_strip | by apply strip_ends].
Qed.

Lemma page_content_trimmed_witness :
  mkPage 1 (u "content") (u "b c") ∈ _parse_outline echo_service (u "a--- b c ")
  /\ Str.strip (u "b c") = u "b c".
Proof.
  assert (H : mkPage 1 (u "content") (u "b c")
                ∈ _parse_outline echo_service (u "a--- b c ")).
  { vm_compute. apply list_elem_of_further, list_elem_of_here. }
  split; [exact H|].
  exact (proj1 (page_content_trimmed echo_service _ _ H)).
Defined.

(** X5.  A page parses back to itself: the content of a page that holds
    no [---] (as is every page of the legacy split) is parsed as one
    page, at index 0, with the same type and the same content. *)
Theorem parse_outline_reparse self t p :
  p ∈ _parse_outline self t ->
  Str.contains (u "---") (content p) = false ->
  _parse_outline self (content p) = [mkPage 0 (type p) (content p)].
Proof.
  intros Hp Hdash.
  destruct (elem_of_parse_outline _ _ _ Hp) as (frag & Hin & _ & Hne & Hc & Hty).
  rewrite Hc, Hty in *. clear Hc Hty.
  pose proof (stripped_fragment_no_delimiter t frag Hin) as Hnone.
  assert (Hpage : Str.contains (u "<page>") (Str.strip frag) = false).
  { destruct (Str.contains (u "<page>") t) eqn:Ht.
    - destruct (Str.contains (u "<page>") (Str.strip frag)) eqn:Hc; [|done].
      apply contains_search_ignorecase in Hc. congruence.
    - destruct (strip_infix frag) as (l & r & Hfrag).
      unfold pages_raw in Hin. rewrite Ht in Hin. unfold Str.contains in *.
      apply split_on_infix in Hin as (l' & r' & Hs); [|done].
      rewrite Hfrag in Hs. rewrite Hs in Ht.
      apply (occurs_infix _ _ l' _ r') in Ht. by apply occurs_infix in Ht. }
  unfold _parse_outline, pages_raw. rewrite Hpage.
  unfold Str.split. rewrite split_on_no_occurrence by done.
  rewrite parse_loop_cons. simpl.
  assert (page_of 0 (Str.strip frag)
          = Some (mkPage 0 (page_type (Str.strip frag)) (Str.strip frag))) as ->.
  { apply page_of_Some. by rewrite strip_strip. }
  done.
Qed.

Lemma parse_outline_reparse_witness :
  mkPage 1 (u "cover") (u "[封面] T") ∈ _parse_outline echo_service (u "a--- [封面] T ")
  /\ Str.contains (u "---") (u "[封面] T") = false
  /\ _parse_outline echo_service (u "[封面] T") = [mkPage 0 (u "cover") (u "[封面] T")].
Proof.
  assert (H : mkPage 1 (u "cover") (u "[封面] T")
                ∈ _parse_outline echo_service (u "a--- [封面] T ")).
  { vm_compute. apply list_elem_of_further, list_elem_of_here. }
  split; [exact H | split; [reflexivity|]].
  exact (parse_outline_reparse echo_service _ _ H eq_refl).
Defined.

(** ** White space around the text *)

Lemma isspace_range w :
  Str.isspace w = true -> w <= 0x20 \/ 0x85 <= w.
Proof.
  unfold Str.isspace.
  rewrite !orb_true_iff, !andb_true_iff, !N.leb_le, !N.eqb_eq. lia.
Qed.

(** A printable ASCII character matches no white space, with or without
    [re.IGNORECASE]. *)
Lemma printable_not_blank a w :
  0x20 < a < 0x85 -> Str.isspace w = true ->
  N.eqb a w = false /\ Re.ignorecase_eq a w = false.
Proof.
  intros Ha Hw%isspace_range. unfold Re.ignorecase_eq, Re.lower_ascii.
  split; [apply N.eqb_neq; lia|].
  apply N.eqb_neq.
  destruct (N.leb_spec 0x41 a), (N.leb_spec a 0x5A),
    (N.leb_spec 0x41 w), (N.leb_spec w 0x5A); simpl; lia.
Qed.

Lemma starts_with_length eqc p s :
  Str.starts_with eqc p s = true -> (length p <= length s)%nat.
Proof.
  revert s. induction p as [|a p IH]; intros [|b s]; simpl; try done; [lia|].
  intros [_ H]%andb_true_iff. apply IH in H. lia.
Qed.

Lemma starts_with_app_blank eqc sep ws s :
  Forall (fun a => Forall (fun w => eqc a w = false) ws) sep ->
  Str.starts_with eqc sep (s ++ ws) = Str.starts_with eqc sep s.
Proof.
  intros Hmis. revert s. induction Hmis as [|a p Ha _ IH]; intros s; [done|].
  destruct s as [|b s].
  - destruct Ha as [|w ws' Hw _]; [done|]. simpl. by rewrite Hw.
  - cbn [app Str.starts_with]. by rewrite IH.
Qed.

Lemma occurs_blank eqc sep ws :
  sep <> [] ->
  Forall (fun a => Forall (fun w => eqc a w = false) ws) sep ->
  Str.occurs eqc sep ws = false.
Proof.
  intros Hsep Hmis. destruct Hmis as [|a p Ha _]; [done|].
  by apply occurs_head_mismatch.
Qed.

Lemma occurs_app_blank eqc sep ws s :
  sep <> [] ->
  Forall (fun a => Forall (fun w => eqc a w = false) ws) sep ->
  Str.occurs eqc sep (s ++ ws) = Str.occurs eqc sep s.
Proof.
  intros Hsep Hmis. induction s as [|c s IH].
  - rewrite app_nil_l, occurs_blank by done. simpl. by destruct sep.
  - cbn [app Str.occurs]. rewrite IH.
    change (c :: s ++ ws) with ((c :: s) ++ ws).
    by rewrite starts_with_app_blank.
Qed.

Lemma occurs_blank_app eqc sep ws s :
  sep <> [] ->
  Forall (fun a => Forall (fun w => eqc a w = false) ws) sep ->
  Str.occurs eqc sep (ws ++ s) = Str.occurs eqc sep s.
Proof.
  intros Hsep Hmis. destruct Hmis as [|a p Ha _]; [done|].
  induction Ha as [|w ws Hw _ IH]; [done|].
  cbn [app Str.occurs Str.starts_with]. by rewrite Hw, IH.
Qed.

Lemma split_scan_cur eqc sep cur s :
  sep <> [] ->
  Str.split_scan eqc sep 0 cur s =
  match Str.split_scan eqc sep 0 [] s with
  | hd :: tl => (reverse cur ++ hd) :: tl
  | [] => []
  end.
Proof.
  intros Hsep.
  rewrite (split_scan_find eqc sep cur s Hsep), (split_scan_find eqc sep [] s Hsep).
  by destruct (Str.find eqc sep s).
Qed.

(** White space put before the text goes to the first piece. *)
Lemma split_on_blank_app eqc sep ws s :
  sep <> [] ->
  Forall (fun a => Forall (fun w => eqc a w = false) ws) sep ->
  exists hd tl,
    Str.split_on eqc sep s = hd :: tl
    /\ Str.split_on eqc sep (ws ++ s) = (ws ++ hd) :: tl.
Proof.
  intros Hsep Hmis. unfold Str.split_on.
  assert (Hscan : forall cur,
    Str.split_scan eqc sep 0 cur (ws ++ s)
    = Str.split_scan eqc sep 0 (reverse ws ++ cur) s).
  { destruct Hmis as [|a p Ha _]; [done|].
    induction Ha as [|w ws Hw _ IH]; intros cur; [done|].
    cbn [app Str.split_scan Str.starts_with]. rewrite Hw. simpl.
    by rewrite IH, reverse_cons, <- app_assoc. }
  rewrite Hscan, app_nil_r, (split_scan_cur eqc sep (reverse ws) s) by done.
  destruct (Str.split_scan eqc sep 0 [] s) as [|hd tl] eqn:Hs.
  { by apply split_scan_nonempty in Hs. }
  exists hd, tl. by rewrite reverse_involutive.
Qed.

(** White space put after the text goes to the last piece. *)
Lemma split_scan_app_blank eqc sep ws k cur s :
  sep <> [] ->
  Forall (fun a => Forall (fun w => eqc a w = false) ws) sep ->
  (k <= length s)%nat ->
  exists init lst,
    Str.split_scan eqc sep k cur s = init ++ [lst]
    /\ Str.split_scan eqc sep k cur (s ++ ws) = init ++ [lst ++ ws].
Proof.
  intros Hsep Hmis. revert k cur. induction s as [|c s IH]; intros k cur Hk.
  - assert (k = 0%nat) as -> by (simpl in Hk; lia).
    exists [], (reverse cur). split; [done|].
    rewrite app_nil_l. by apply split_scan_no_occurrence, occurs_blank.
  - destruct k as [|k].
    + cbn [app Str.split_scan].
      change (c :: s ++ ws) with ((c :: s) ++ ws).
      rewrite starts_with_app_blank by done.
      destruct (Str.starts_with eqc sep (c :: s)) eqn:Hst.
      * apply starts_with_length in Hst. simpl in Hst.
        destruct (IH (length sep - 1)%nat [] ltac:(lia)) as (init & lst & H1 & H2).
        exists (reverse cur :: init), lst. by rewrite H1, H2.
      * destruct (IH 0%nat (c :: cur) ltac:(lia)) as (init & lst & H1 & H2).
        exists init, lst. by rewrite H1, H2.
    + cbn [app Str.split_scan]. apply IH. simpl in Hk. lia.
Qed.

Lemma drop_while_blank_app ws s :
  Forall (fun c => Str.isspace c = true) ws ->
  Str.drop_while Str.isspace (ws ++ s) = Str.drop_while Str.isspace s.
Proof. induction 1 as [|w ws Hw _ IH]; [done|]. simpl. by rewrite Hw. Qed.

Lemma drop_while_app_blank ws s :
  Forall (fun c => Str.isspace c = true) ws ->
  Str.drop_while Str.isspace (s ++ ws) =
  match Str.drop_while Str.isspace s with
  | [] => []
  | c :: d => (c :: d) ++ ws
  end.
Proof.
  intros Hws. induction s as [|c s IH].
  - simpl. by apply drop_while_all.
  - cbn [app Str.drop_while]. by destruct (Str.isspace c).
Qed.

Lemma strip_blank_app ws s :
  Forall (fun c => Str.isspace c = true) ws ->
  Str.strip (ws ++ s) = Str.strip s.
Proof.
  intros Hws. unfold Str.strip, Str.lstrip. by rewrite drop_while_blank_app.
Qed.

Lemma strip_app_blank ws s :
  Forall (fun c => Str.isspace c = true) ws ->
  Str.strip (s ++ ws) = Str.strip s.
Proof.
  intros Hws. unfold Str.strip, Str.lstrip, Str.rstrip.
  rewrite drop_while_app_blank by done.
  destruct (Str.drop_while Str.isspace s) as [|c d]; [done|].
  rewrite reverse_app, drop_while_blank_app; [done|].
  by apply Forall_reverse.
Qed.

Lemma page_of_strip i f f' :
  Str.strip f = Str.strip f' -> page_of i f = page_of i f'.
Proof. unfold page_of. by intros ->. Qed.

Lemma parse_loop_app i l1 l2 :
  parse_loop i (l1 ++ l2) [] =
  parse_loop i l1 [] ++ parse_loop (i + length l1) l2 [].
Proof.
  revert i. induction l1 as [|f l1 IH]; intros i.
  - simpl. by rewrite Nat.add_0_r.
  - cbn [app]. rewrite !parse_loop_cons, IH, <- app_assoc.
    do 3 f_equal. simpl. lia.
Qed.

Lemma marker_mismatch sep ws :
  Forall (fun a => 0x20 < a < 0x85) sep ->
  Forall (fun c => Str.isspace c = true) ws ->
  Forall (fun a => Forall (fun w => N.eqb a w = false) ws) sep
  /\ Forall (fun a => Forall (fun w => Re.ignorecase_eq a w = false) ws) sep.
Proof.
  intros Hsep Hws.
  split; (eapply Forall_impl; [exact Hsep|]); intros a Ha;
    (eapply Forall_impl; [exact Hws|]); intros w Hw;
    by destruct (printable_not_blank a w Ha Hw).
Qed.

Lemma markers_printable :
  Forall (fun a => 0x20 < a < 0x85) (u "<page>")
  /\ Forall (fun a => 0x20 < a < 0x85) (u "---").
Proof. split; repeat constructor; done. Qed.

Lemma parse_blank_prefix self ws t :
  Forall (fun c => Str.isspace c = true) ws ->
  _parse_outline self (ws ++ t) = _parse_outline self t.
Proof.
  intros Hws.
  destruct markers_printable as [Hp Hd].
  destruct (marker_mismatch _ _ Hp Hws) as [Hp1 Hp2].
  destruct (marker_mismatch _ _ Hd Hws) as [Hd1 _].
  unfold _parse_outline, pages_raw, Str.contains.
  rewrite (occurs_blank_app N.eqb (u "<page>") ws t) by done.
  destruct (Str.occurs N.eqb (u "<page>") t).
  - destruct (split_on_blank_app Re.ignorecase_eq (u "<page>") ws t ltac:(done) Hp2)
      as (hd & tl & H1 & H2).
    unfold Re.split_ignorecase. rewrite H1, H2, !parse_loop_cons.
    by rewrite (page_of_strip 0 (ws ++ hd) hd (strip_blank_app _ _ Hws)).
  - destruct (split_on_blank_app N.eqb (u "---") ws t ltac:(done) Hd1)
      as (hd & tl & H1 & H2).
    unfold Str.split. rewrite H1, H2, !parse_loop_cons.
    by rewrite (page_of_strip 0 (ws ++ hd) hd (strip_blank_app _ _ Hws)).
Qed.

Lemma parse_blank_suffix self ws t :
  Forall (fun c => Str.isspace c = true) ws ->
  _parse_outline self (t ++ ws) = _parse_outline self t.
Proof.
  intros Hws.
  destruct markers_printable as [Hp Hd].
  destruct (marker_mismatch _ _ Hp Hws) as [Hp1 Hp2].
  destruct (marker_mismatch _ _ Hd Hws) as [Hd1 _].
  unfold _parse_outline, pages_raw, Str.contains.
  rewrite (occurs_app_blank N.eqb (u "<page>") ws t) by done.
  destruct (Str.occurs N.eqb (u "<page>") t).
  - destruct (split_scan_app_blank Re.ignorecase_eq (u "<page>") ws 0 [] t
                ltac:(done) Hp2 ltac:(lia)) as (init & lst & H1 & H2).
    unfold Re.split_ignorecase, Str.split_on. rewrite H1, H2, !parse_loop_app.
    f_equal. rewrite !parse_loop_cons.
    by rewrite (page_of_strip _ (lst ++ ws) lst (strip_app_blank _ _ Hws)).
  - destruct (split_scan_app_blank N.eqb (u "---") ws 0 [] t
                ltac:(done) Hd1 ltac:(lia)) as (init & lst & H1 & H2).
    unfold Str.split, Str.split_on. rewrite H1, H2, !parse_loop_app.
    f_equal. rewrite !parse_loop_cons.
    by rewrite (page_of_strip _ (lst ++ ws) lst (strip_app_blank _ _ Hws)).
Qed.

(** X6.  White space before and after the whole text, such as the blank
    lines a generator puts around its answer, changes nothing: the pages,
    indices included, are those of the bare text. *)
Theorem parse_outline_blank_around self ws ws' t :
  Forall (fun c => Str.isspace c = true) ws ->
  Forall (fun c => Str.isspace c = true) ws' ->
  _parse_outline self (ws ++ t ++ ws') = _parse_outline self t.
Proof.
  intros Hws Hws'. by rewrite parse_blank_prefix, parse_blank_suffix.
Qed.

Lemma parse_outline_blank_around_witness :
  Forall (fun c => Str.isspace c = true) (nl ++ nl)
  /\ Forall (fun c => Str.isspace c = true) (u " " ++ nl)
  /\ _parse_outline echo_service
       ((nl ++ nl) ++ u "[封面] A<page>B" ++ (u " " ++ nl))
     = _parse_outline echo_service (u "[封面] A<page>B").
Proof.
  assert (H1 : Forall (fun c => Str.isspace c = true) (nl ++ nl))
    by (repeat constructor).
  assert (H2 : Forall (fun c => Str.isspace c = true) (u " " ++ nl))
    by (repeat constructor).
  split; [exact H1 | split; [exact H2|]].
  exact (parse_outline_blank_around echo_service _ _ (u "[封面] A<page>B") H1 H2).
Defined.

(** ** Numbering *)

Lemma parse_loop_dense i raw :
  Forall (fun frag => Str.strip frag <> []) raw ->
  index <$> parse_loop i raw [] = seq i (length raw).
Proof.
  intros Hall. revert i. induction Hall as [|f raw Hf _ IH]; intros i; [done|].
  rewrite parse_loop_cons.
  assert (page_of i f = Some (mkPage i (page_type (Str.strip f)) (Str.strip f))) as ->
    by by apply page_of_Some.
  cbn [app fmap list_fmap length seq index]. f_equal. apply IH.
Qed.

(** X7.  When no fragment of the split is blank, the pages are numbered
    0, 1, 2, ... without a gap, one page per fragment. *)
Theorem parse_outline_dense self t :
  Forall (fun frag => Str.strip frag <> []) (pages_raw t) ->
  index <$> _parse_outline self t = seq 0 (length (pages_raw t)).
Proof. apply parse_loop_dense. Qed.

Lemma parse_outline_dense_witness :
  Forall (fun frag => Str.strip frag <> []) (pages_raw (u "A<page> B <PAGE>C"))
  /\ index <$> _parse_outline echo_service (u "A<page> B <PAGE>C") = [0; 1; 2]%nat.
Proof.
  assert (H : Forall (fun frag => Str.strip frag <> [])
                     (pages_raw (u "A<page> B <PAGE>C"))).
  { vm_compute. repeat constructor; discriminate. }
  split; [exact H|].
  exact (parse_outline_dense echo_service _ H).
Defined.

(** X8.  A text that begins with the marker has an empty first fragment,
    so none of its pages has index 0. *)
Theorem parse_outline_leading_marker self t :
  Forall (fun p => (1 <= index p)%nat) (_parse_outline self (u "<page>" ++ t)).
Proof.
  unfold _parse_outline, pages_raw.
  assert (Str.contains (u "<page>") (u "<page>" ++ t) = true) as ->.
  { unfold Str.contains. apply occurs_app_r. reflexivity. }
  unfold Re.split_ignorecase. rewrite split_on_find by done.
  assert (Str.find Re.ignorecase_eq (u "<page>") (u "<page>" ++ t) = Some 0%nat) as ->.
  { destruct t; reflexivity. }
  rewrite parse_loop_cons. change (page_of 0 (take 0 (u "<page>" ++ t))) with (@None Page).
  apply parse_loop_index_ge.
Qed.
